(** * js-angusj-clipper: the kernel loader and the operation facade

    A shallow embedding of [src/lib/index.ts]: the module-level cache of the
    two native binaries, the asynchronous loader
    [loadNativeClipperLibInstanceAsync] split at its [await] points, calls in
    any interleaving, the promise of [getModuleAsync], and the
    [ClipperLibWrapper] facade. *)

From Stdlib Require Import ZArith QArith Lia.
From stdpp Require Import base list strings gmap.

Close Scope Q_scope.
Open Scope string_scope.
Open Scope list_scope.

(** ** The kernel loader *)

Module Loader.

(** [const enum NativeClipperLibLoadedFormat] *)
Inductive NativeClipperLibLoadedFormat : Set :=
| Wasm
| AsmJs.

#[global] Instance NativeClipperLibLoadedFormat_eq_dec :
  EqDecision NativeClipperLibLoadedFormat.
Proof. solve_decision. Defined.

(** [enum NativeClipperLibRequestedFormat]: a string enum, so at run time the
    loader may receive any string. *)
Module NativeClipperLibRequestedFormat.
Definition WasmWithAsmJsFallback : string := "wasmWithAsmJsFallback".
Definition WasmOnly : string := "wasmOnly".
Definition AsmJsOnly : string := "asmJsOnly".
End NativeClipperLibRequestedFormat.
Import NativeClipperLibRequestedFormat.

(** A native module object, known by its identity only. *)
Definition NativeClipperLibInstance : Set := nat.

(** An [Error] value, known by its message. *)
Definition JsError : Set := string.

(** A JavaScript value, told apart the way the loader tells values apart:
    [=== undefined], [instanceof Error], or neither.  The two module variables
    are declared [NativeClipperLibInstance | undefined | Error], but they are
    assigned whatever an [await] delivers and whatever a [catch] receives, so
    [instanceValue] stands for every value of the third kind: the module
    object as a rule, but also a caught value that is not an [Error]. *)
Inductive ModuleVar : Set :=
| undefined
| instanceValue (m : NativeClipperLibInstance)
| errorValue (e : JsError).

#[global] Instance ModuleVar_eq_dec : EqDecision ModuleVar.
Proof. unfold NativeClipperLibInstance, JsError. solve_decision. Defined.

(** [class ClipperLibWrapper]: its two read-only fields.  [instance] is
    declared a [NativeClipperLibInstance]; the constructor stores the value it
    is given. *)
Record ClipperLibWrapper : Set := mkWrapper {
  format : NativeClipperLibLoadedFormat;
  instance : ModuleVar
}.

(** What a call may throw.  The loader itself only ever constructs
    [ClipperError]s from a message; [NativeFailure] stands for an error of a
    failing format handed on to the caller. *)
Inductive Thrown : Set :=
| ClipperError (message : string)
| NativeFailure (cause : JsError).

#[global] Instance Thrown_eq_dec : EqDecision Thrown.
Proof. unfold JsError. solve_decision. Defined.

Definition unknown_format_message : string := "unknown native clipper format".
Definition could_not_load_message : string :=
  "could not load native clipper in the desired format".

(** Ghost events, recorded to count what a call does. *)
Inductive Event : Set :=
| Attempt (f : NativeClipperLibLoadedFormat)   (* a [try] block is entered *)
| InitCall (f : NativeClipperLibLoadedFormat). (* [initModule(moduleOverrides)] runs *)

#[global] Instance Event_eq_dec : EqDecision Event.
Proof. solve_decision. Defined.

(** The module-level variables, the object heap on which wrappers are
    allocated (an object is its index), and the ghost trace. *)
Record LoaderState : Set := mkState {
  wasmModule : ModuleVar;
  asmJsModule : ModuleVar;
  objects : list ClipperLibWrapper;
  trace : list Event
}.

Definition initial : LoaderState := mkState undefined undefined [] [].

(** A process in which [require] finds both modules. *)
Definition found : NativeClipperLibLoadedFormat -> option ModuleVar := λ _, None.

Definition moduleVar (f : NativeClipperLibLoadedFormat) (st : LoaderState) : ModuleVar :=
  match f with
  | Wasm => wasmModule st
  | AsmJs => asmJsModule st
  end.

Definition set_moduleVar (f : NativeClipperLibLoadedFormat) (v : ModuleVar)
    (st : LoaderState) : LoaderState :=
  match f with
  | Wasm => mkState v (asmJsModule st) (objects st) (trace st)
  | AsmJs => mkState (wasmModule st) v (objects st) (trace st)
  end.

Definition record (e : Event) (st : LoaderState) : LoaderState :=
  mkState (wasmModule st) (asmJsModule st) (objects st) (trace st ++ [e]).

(** How the promise of [getModuleAsync] settles: fulfilled with a value, which
    the [await] delivers, or rejected with a value, which the [catch]
    receives.  Either value may be anything: [preRun] resolves with whatever
    [initModule] returned, [quit] rejects with whatever it is passed.  A
    promise that never settles leaves its call suspended for good. *)
Inductive Outcome : Set :=
| Resolved (value : ModuleVar)
| Rejected (caught : ModuleVar).

(** Where a call stands: suspended at one of the two [await]s, or completed. *)
Inductive Call : Set :=
| AwaitWasm (tryAsmJs : bool)
| AwaitAsmJs
| Return (wrapper : nat)
| Throw (x : Thrown).

#[global] Instance Call_eq_dec : EqDecision Call.
Proof. solve_decision. Defined.

(** [new ClipperLibWrapper(instance, format)] *)
Definition new_ClipperLibWrapper (m : ModuleVar)
    (f : NativeClipperLibLoadedFormat) (st : LoaderState) : LoaderState * Call :=
  (mkState (wasmModule st) (asmJsModule st) (objects st ++ [mkWrapper f m]) (trace st),
   Return (length (objects st))).

(** The [switch] on the requested format: [Some (tryWasm, tryAsmJs)], or [None]
    in the [default] case. *)
Definition switch_format (fmt : string) : option (bool * bool) :=
  if decide (fmt = WasmWithAsmJsFallback) then Some (true, true)
  else if decide (fmt = WasmOnly) then Some (true, false)
  else if decide (fmt = AsmJsOnly) then Some (false, true)
  else None.

Section Run.

(** [require('../wasm/clipper-wasm').init] and [require('../wasm/clipper').init]:
    [None] when the module is found, [Some v] when [require] throws [v]. *)
Variable require_init : NativeClipperLibLoadedFormat -> option ModuleVar.

(** [if (tryAsmJs) { ... }] followed by the final [throw]. *)
Definition asmJs_block (tryAsmJs : bool) (st : LoaderState) : LoaderState * Call :=
  if tryAsmJs then
    match asmJsModule st with
    | errorValue _ => (st, Throw (ClipperError could_not_load_message))
    | undefined =>
        let st := record (Attempt AsmJs) st in
        match require_init AsmJs with
        | Some err =>
            (set_moduleVar AsmJs err st,
             Throw (ClipperError could_not_load_message))
        | None => (record (InitCall AsmJs) st, AwaitAsmJs)
        end
    | instanceValue m => new_ClipperLibWrapper (instanceValue m) AsmJs st
    end
  else (st, Throw (ClipperError could_not_load_message)).

(** [if (tryWasm) { ... }], falling through to the asm.js block. *)
Definition wasm_block (tryWasm tryAsmJs : bool) (st : LoaderState) : LoaderState * Call :=
  if tryWasm then
    match wasmModule st with
    | errorValue _ => asmJs_block tryAsmJs st
    | undefined =>
        let st := record (Attempt Wasm) st in
        match require_init Wasm with
        | Some err => asmJs_block tryAsmJs (set_moduleVar Wasm err st)
        | None => (record (InitCall Wasm) st, AwaitWasm tryAsmJs)
        end
    | instanceValue m => new_ClipperLibWrapper (instanceValue m) Wasm st
    end
  else asmJs_block tryAsmJs st.

(** The body from its entry to the first [await] (or to completion). *)
Definition start (fmt : string) (st : LoaderState) : LoaderState * Call :=
  match switch_format fmt with
  | None => (st, Throw (ClipperError unknown_format_message))
  | Some (tryWasm, tryAsmJs) => wasm_block tryWasm tryAsmJs st
  end.

(** The body from an [await] that settles with [o] to the next [await] (or to
    completion): [wasmModule = await ...; return new ClipperLibWrapper(wasmModule, ...)]
    when the promise is fulfilled, [catch (err) { wasmModule = err; }] and on
    to what follows when it is rejected.  The value is stored as it comes; it
    is the next call that looks at what it is. *)
Definition resume (c : Call) (o : Outcome) (st : LoaderState) : LoaderState * Call :=
  match c with
  | AwaitWasm tryAsmJs =>
      match o with
      | Resolved v => new_ClipperLibWrapper v Wasm (set_moduleVar Wasm v st)
      | Rejected err => asmJs_block tryAsmJs (set_moduleVar Wasm err st)
      end
  | AwaitAsmJs =>
      match o with
      | Resolved v => new_ClipperLibWrapper v AsmJs (set_moduleVar AsmJs v st)
      | Rejected err =>
          (set_moduleVar AsmJs err st,
           Throw (ClipperError could_not_load_message))
      end
  | Return _ | Throw _ => (st, c)
  end.

(** A call that nothing interleaves with, and whose promises settle: each
    promise it awaits settles as [settle] says before any other call starts. *)
Definition loadNativeClipperLibInstanceAsync (fmt : string)
    (settle : NativeClipperLibLoadedFormat -> Outcome) (st : LoaderState)
    : LoaderState * Call :=
  let '(st1, c1) := start fmt st in
  match c1 with
  | AwaitWasm _ =>
      let '(st2, c2) := resume c1 (settle Wasm) st1 in
      match c2 with
      | AwaitAsmJs => resume c2 (settle AsmJs) st2
      | _ => (st2, c2)
      end
  | AwaitAsmJs => resume c1 (settle AsmJs) st1
  | _ => (st1, c1)
  end.

(** A request served alone, and a queue of requests served one after the
    other. *)
Record Request : Set := mkRequest {
  requested : string;
  settles : NativeClipperLibLoadedFormat -> Outcome
}.

Definition serve (st : LoaderState) (r : Request) : LoaderState :=
  fst (loadNativeClipperLibInstanceAsync (requested r) (settles r) st).

Definition serve_all (rs : list Request) (st : LoaderState) : LoaderState :=
  fold_left serve rs st.

(** Two calls with the same argument that overlap: the second starts while the
    first is suspended; then the promise of the first settles with [oA] and
    the promise of the second with [oB]. *)
Definition two_overlapping_calls (fmt : string) (oA oB : Outcome) (st : LoaderState)
    : LoaderState * Call * Call :=
  let '(s1, a) := start fmt st in
  let '(s2, b) := start fmt s1 in
  let '(s3, a') := resume a oA s2 in
  let '(s4, b') := resume b oB s3 in
  (s4, a', b').

End Run.

(** Ghost counters over the trace. *)
Definition native_initializations (f : NativeClipperLibLoadedFormat)
    (st : LoaderState) : nat :=
  length (filter (λ e, e = InitCall f) (trace st)).

(** The events a call added to the trace of [st]. *)
Definition events_since (st st' : LoaderState) : list Event :=
  drop (length (trace st)) (trace st').

(** The format a requested mode asks for first. *)
Definition requests (fmt : string) (f : NativeClipperLibLoadedFormat) : Prop :=
  match f with
  | Wasm => fmt = WasmWithAsmJsFallback \/ fmt = WasmOnly
  | AsmJs => fmt = AsmJsOnly
  end.

(** The handle a completed call hands to its caller. *)
Definition returned_instance (st : LoaderState) (c : Call) : option ModuleVar :=
  match c with
  | Return w => instance <$> objects st !! w
  | _ => None
  end.


(** The specification's wording of the load failure: the cause of the failing
    format when there is one, the generic message otherwise. *)
Definition spec_load_failure (cause : option JsError) : Thrown :=
  match cause with
  | Some e => NativeFailure e
  | None => ClipperError could_not_load_message
  end.

End Loader.

(** ** The operation facade *)

Module Facade.
Import Loader.

(** [IntPoint], [Path], [Paths]: integer coordinates, ordered vertices. *)
Record IntPoint : Set := mkPoint { X : Z; Y : Z }.

Abbreviation Path := (list IntPoint).
Abbreviation Paths := (list (list IntPoint)).

(** The outcome of a facade method whose result type is [T | undefined]. *)
Inductive FacadeError : Set :=
| UsagePrecondition
| KernelOperationFailure (operation : string) (status : Z).

Inductive Result (T : Type) : Type :=
| Value (v : T)
| Undefined
| Raise (e : FacadeError).
Arguments Value {T} v.
Arguments Undefined {T}.
Arguments Raise {T} e.

(** *** cleanPolygon / cleanPolygons *)

(** The default of the [distance] parameter, as the source writes it. *)
Definition default_distance : Q := 1.1415%Q.

Section Clean.

(** [cleanPolygon] and [cleanPolygons] of [./functions], which run in the
    native kernel. *)
Variable functions_cleanPolygon : ModuleVar -> Path -> Q -> Path.
Variable functions_cleanPolygons : ModuleVar -> Paths -> Q -> Paths.

(** [cleanPolygon(path, distance = 1.1415)]: [None] is the omitted argument. *)
Definition cleanPolygon (this : ClipperLibWrapper) (path : Path)
    (distance : option Q) : Path :=
  functions_cleanPolygon (instance this) path (default default_distance distance).

Definition cleanPolygons (this : ClipperLibWrapper) (paths : Paths)
    (distance : option Q) : Paths :=
  functions_cleanPolygons (instance this) paths (default default_distance distance).

End Clean.

(** Two vertices lie within [d] of each other. *)
Definition within_distance (p q : IntPoint) (d : Q) : Prop :=
  (inject_Z ((X p - X q) * (X p - X q) + (Y p - Y q) * (Y p - Y q)) <= d * d)%Q.

(** *** clipToPaths *)

Inductive ClipType : Set := Intersection | Union | Difference | Xor.
Inductive PolyFillType : Set := EvenOdd | NonZero.

(** Modelled from the spec: the types [ClipInput] and [ClipData] of
    [./clipFunctions], which is not among the sources.  A clip operation has
    two path sets, subject and clip, an operation kind and a fill rule per
    set; a subject path is open (a polyline) or closed (a polygon). *)
Record ClipInput : Set := mkClipInput {
  data : Path;
  closed : bool
}.

Record ClipData : Set := mkClipData {
  clipType : ClipType;
  subjectInputs : list ClipInput;
  clipInputs : list ClipInput;
  subjectFillType : PolyFillType;
  clipFillType : PolyFillType
}.

Definition has_open_subject (d : ClipData) : bool :=
  existsb (λ i, negb (closed i)) (subjectInputs d).

Section Clip.

(** The kernel's clip call: the result paths, or a non-success status. *)
Variable kernel_clip : ModuleVar -> ClipData -> Paths + Z.

(** Modelled from the spec: [clipToPaths] of [./clipFunctions], which is not
    among the sources.  Requesting the flat Paths form with an open subject
    path is a usage error, reported and not downgraded; a non-success status
    of the kernel surfaces as a typed error carrying operation and status. *)
Definition functions_clipToPaths (nativeLib : ModuleVar)
    (d : ClipData) : Result Paths :=
  if has_open_subject d then Raise UsagePrecondition
  else
    match kernel_clip nativeLib d with
    | inl paths => Value paths
    | inr status => Raise (KernelOperationFailure "clipToPaths" status)
    end.

(** [clipToPaths(data) { return clipToPaths(this.instance, data); }] *)
Definition clipToPaths (this : ClipperLibWrapper) (d : ClipData) : Result Paths :=
  functions_clipToPaths (instance this) d.

End Clip.

(** *** area and reversePath *)

(** The cross product of two consecutive vertices. *)
Definition cross (p q : IntPoint) : Z := X p * Y q - X q * Y p.

(** The cross products along the chain [p, l0, l1, ...], summed. *)
Fixpoint chain_sum (p : IntPoint) (l : Path) : Z :=
  match l with
  | [] => 0
  | q :: l' => cross p q + chain_sum q l'
  end.

(** The chain of a path, taken from its first vertex. *)
Definition open_sum (path : Path) : Z :=
  match path with
  | [] => 0
  | p :: l => chain_sum p l
  end.

(** The sum over all consecutive pairs of the closed contour: the chain, and
    the edge from the last vertex back to the first. *)
Definition cross_sum (path : Path) : Z :=
  match path with
  | [] => 0
  | p :: l => chain_sum p l + cross (List.last l p) p
  end.

(** Modelled from the spec: [area] of [./functions], which is not among the
    sources.  The signed area is a direct sum over consecutive-vertex cross
    products, computed locally; halved, and exact on integer coordinates. *)
Definition functions_area (path : Path) : Q := Qred (cross_sum path # 2).

(** The caller's paths, by reference: [reversePath] overwrites its argument. *)
Abbreviation PathStore := (gmap nat (list IntPoint)).

(** Modelled from the spec: [reversePath] of [./functions], which is not
    among the sources.  The vertex order is reversed in place: the structure
    passed is mutated, no copy is returned. *)
Definition functions_reversePath (ref : nat) (h : PathStore) : PathStore :=
  alter (@rev IntPoint) ref h.

(** [area(path) { return area(path); }] on a path held in the store. *)
Definition area (h : PathStore) (ref : nat) : option Q :=
  functions_area <$> h !! ref.

(** [reversePath(path) { reversePath(path); }] *)
Definition reversePath (ref : nat) (h : PathStore) : PathStore :=
  functions_reversePath ref h.

End Facade.

(** ** What a call does, and calls in any interleaving *)

Module Schedule.
Import Loader Loader.NativeClipperLibRequestedFormat.

(** What a completed call hands to its caller: the error thrown, or the
    wrapper object returned; nothing while the call is suspended. *)
Definition outcome_of (r : LoaderState * Call) : option (Thrown + ClipperLibWrapper) :=
  match r.2 with
  | Return w => inr <$> objects r.1 !! w
  | Throw x => Some (inl x)
  | AwaitWasm _ | AwaitAsmJs => None
  end.

(** The value a call can get for format [f]: the cached one when the variable
    holds neither [undefined] nor an [Error]; when it holds [undefined], the
    value the promise is fulfilled with, if [require] succeeds and the promise
    is fulfilled. *)
Definition obtainable (require_init : NativeClipperLibLoadedFormat -> option ModuleVar)
    (settle : NativeClipperLibLoadedFormat -> Outcome)
    (f : NativeClipperLibLoadedFormat) (st : LoaderState)
    : option ModuleVar :=
  match moduleVar f st with
  | instanceValue m => Some (instanceValue m)
  | errorValue _ => None
  | undefined =>
      match require_init f, settle f with
      | None, Resolved v => Some v
      | _, _ => None
      end
  end.

(** What an attempt at format [f] stores in the variable when it is made: the
    value [require] throws, else the value the promise settles with. *)
Definition delivered_value (require_init : NativeClipperLibLoadedFormat -> option ModuleVar)
    (settle : NativeClipperLibLoadedFormat -> Outcome)
    (f : NativeClipperLibLoadedFormat) : ModuleVar :=
  match require_init f with
  | Some v => v
  | None => match settle f with Resolved v => v | Rejected v => v end
  end.

(** The value caught when an attempt at format [f] fails: the one [require]
    throws, else the one the promise is rejected with. *)
Definition caught_value (require_init : NativeClipperLibLoadedFormat -> option ModuleVar)
    (settle : NativeClipperLibLoadedFormat -> Outcome)
    (f : NativeClipperLibLoadedFormat) : option ModuleVar :=
  match require_init f with
  | Some v => Some v
  | None => match settle f with Rejected v => Some v | Resolved _ => None end
  end.

(** The events of one format's block: none when the variable is decided; when
    it is [undefined], the attempt, and the native initialization if
    [require] succeeds. *)
Definition attempt_events (require_init : NativeClipperLibLoadedFormat -> option ModuleVar)
    (f : NativeClipperLibLoadedFormat) (st : LoaderState) : list Event :=
  match moduleVar f st with
  | undefined =>
      match require_init f with
      | None => [Attempt f; InitCall f]
      | Some _ => [Attempt f]
      end
  | _ => []
  end.

(** Format [f] fails for this call: its variable holds an [Error], or it holds
    [undefined] and the attempt fails, [require] throwing or the promise being
    rejected. *)
Definition fails (require_init : NativeClipperLibLoadedFormat -> option ModuleVar)
    (settle : NativeClipperLibLoadedFormat -> Outcome)
    (f : NativeClipperLibLoadedFormat) (st : LoaderState) : bool :=
  match moduleVar f st with
  | errorValue _ => true
  | instanceValue _ => false
  | undefined =>
      match require_init f, settle f with
      | None, Resolved _ => false
      | _, _ => true
      end
  end.

(** Every format the mode applies to fails for this call. *)
Definition all_applicable_fail
    (require_init : NativeClipperLibLoadedFormat -> option ModuleVar)
    (settle : NativeClipperLibLoadedFormat -> Outcome)
    (fmt : string) (st : LoaderState) : Prop :=
  match switch_format fmt with
  | Some (tryWasm, tryAsmJs) =>
      (tryWasm = true -> fails require_init settle Wasm st = true) /\
      (tryAsmJs = true -> fails require_init settle AsmJs st = true)
  | None => False
  end.

(** What the event loop may do next: let a caller enter the loader, or settle
    the promise that the [i]-th call is awaiting. *)
Inductive Step : Set :=
| StartCall (fmt : string)
| Settle (i : nat) (o : Outcome).

(** The module variables with every call made so far, in order of entry. *)
Record System : Set := mkSystem {
  loader : LoaderState;
  calls : list Call
}.

Section Steps.

Variable require_init : NativeClipperLibLoadedFormat -> option ModuleVar.

Definition step (sys : System) (s : Step) : System :=
  match s with
  | StartCall fmt =>
      let '(st, c) := start require_init fmt (loader sys) in
      mkSystem st (calls sys ++ [c])
  | Settle i o =>
      match calls sys !! i with
      | Some c =>
          let '(st, c') := resume require_init c o (loader sys) in
          mkSystem st (<[i:=c']> (calls sys))
      | None => sys
      end
  end.

Definition run (steps : list Step) (sys : System) : System :=
  fold_left step steps sys.

End Steps.

(** The calls that are suspended at the Wasm [await]. *)
Definition is_AwaitWasm (c : Call) : bool :=
  match c with AwaitWasm _ => true | _ => false end.

Definition awaiting_wasm (cs : list Call) : nat :=
  length (filter (λ c, is_AwaitWasm c = true) cs).

Definition is_StartCall (s : Step) : bool :=
  match s with StartCall _ => true | Settle _ _ => false end.

(** How many callers the schedule lets in. *)
Definition entries (steps : list Step) : nat :=
  length (filter (λ s, is_StartCall s = true) steps).

(** The values the schedule's settlements deliver, fulfilled or rejected. *)
Definition delivered (steps : list Step) : list ModuleVar :=
  omap (λ s, match s with
             | Settle _ (Resolved v) | Settle _ (Rejected v) => Some v
             | StartCall _ => None
             end) steps.

(** The values held in the two variables. *)
Definition cached (st : LoaderState) : list ModuleVar :=
  [wasmModule st; asmJsModule st].



(** The initializations of [f] that suspended calls may still run: a call
    suspended at the Wasm [await] may yet fall through to the AsmJs block. *)
Definition may_still_initialize (f : NativeClipperLibLoadedFormat) (cs : list Call) : nat :=
  match f with
  | Wasm => 0
  | AsmJs => awaiting_wasm cs
  end.

(** Every value the loader holds: in its two variables and in the wrappers
    it has built. *)
Definition known (st : LoaderState) : list ModuleVar :=
  cached st ++ (instance <$> objects st).

(** The mode that asks for [f] alone. *)
Definition only (f : NativeClipperLibLoadedFormat) : string :=
  match f with
  | Wasm => WasmOnly
  | AsmJs => AsmJsOnly
  end.

Definition completed (c : Call) : Prop :=
  match c with
  | Return _ | Throw _ => True
  | AwaitWasm _ | AwaitAsmJs => False
  end.




(** The wrappers returned so far are allocated, and no two calls share one. *)
Definition wrappers_apart (sys : System) : Prop :=
  (forall i w, calls sys !! i = Some (Return w) ->
     w < length (objects (loader sys))) /\
  (forall i j wi wj,
     i <> j ->
     calls sys !! i = Some (Return wi) ->
     calls sys !! j = Some (Return wj) ->
     wi <> wj).

End Schedule.

(** ** getModuleAsync: the promise around one native initialization *)

Module GetModule.
Import Loader.

(** The promise [getModuleAsync] returns.  It is resolved with [finalModule],
    which is [undefined] until [initModule] has returned. *)
Inductive Promise : Set :=
| Pending
| Fulfilled (value : option NativeClipperLibInstance)
| RejectedWith (err : JsError).

(** The closure of the promise's executor: the local [finalModule], the
    promise, and the one-millisecond timeouts set and not yet run. *)
Record Closure : Set := mkClosure {
  finalModule : option NativeClipperLibInstance;
  promise : Promise;
  timeouts : nat
}.

(** [resolve] and [reject] settle a pending promise and do nothing to a
    settled one. *)
Definition resolve (v : option NativeClipperLibInstance) (s : Closure) : Closure :=
  match promise s with
  | Pending => mkClosure (finalModule s) (Fulfilled v) (timeouts s)
  | _ => s
  end.

Definition reject (e : JsError) (s : Closure) : Closure :=
  match promise s with
  | Pending => mkClosure (finalModule s) (RejectedWith e) (timeouts s)
  | _ => s
  end.

(** [preRun()]: resolve at once when [finalModule] is set, else set a timeout
    that will. *)
Definition preRun (s : Closure) : Closure :=
  match finalModule s with
  | Some m => resolve (Some m) s
  | None => mkClosure (finalModule s) (promise s) (S (timeouts s))
  end.

(** [quit(code, err)] *)
Definition quit (code : Z) (err : JsError) (s : Closure) : Closure :=
  reject err s.

(** The body of the timeout: [resolve(finalModule)]. *)
Definition timeout (s : Closure) : Closure :=
  match timeouts s with
  | S n => resolve (finalModule s) (mkClosure (finalModule s) (promise s) n)
  | O => s
  end.

(** [locateFile(file)], with [resourceFilePrefixUrl] defaulting to [''] when
    the caller leaves it out. *)
Definition locateFile (resourceFilePrefixUrl : option string) (file : string) : string :=
  String.append (default "" resourceFilePrefixUrl) file.

(** The hooks of [moduleOverrides] that the native runtime calls. *)
Inductive Hook : Set :=
| PreRun
| Quit (code : Z) (err : JsError).

Definition call_hook (s : Closure) (h : Hook) : Closure :=
  match h with
  | PreRun => preRun s
  | Quit code err => quit code err s
  end.

(** What [initModule(moduleOverrides)] does before it gives control back: the
    hooks it calls, then the value it returns ([None] for [undefined]) or the
    error it throws. *)
Record InitModule : Set := mkInitModule {
  during : list Hook;
  result : JsError + option NativeClipperLibInstance
}.

(** The executor: [finalModule = initModule(moduleOverrides)].  An executor
    that throws rejects the promise. *)
Definition executor (init : InitModule) : Closure :=
  let s := fold_left call_hook (during init) (mkClosure None Pending 0) in
  match result init with
  | inr v => mkClosure v (promise s) (timeouts s)
  | inl e => reject e s
  end.

(** What happens after the executor has returned: the runtime calls a hook,
    or a timeout runs. *)
Inductive Later : Set :=
| Calls (h : Hook)
| TimeoutRuns.

Definition later (s : Closure) (e : Later) : Closure :=
  match e with
  | Calls h => call_hook s h
  | TimeoutRuns => timeout s
  end.

(** The promise of [getModuleAsync(initModule)] after the given events. *)
Definition getModuleAsync (init : InitModule) (events : list Later) : Promise :=
  promise (fold_left later events (executor init)).

Definition is_Quit (h : Hook) : bool :=
  match h with Quit _ _ => true | PreRun => false end.

Definition is_hook_call (e : Later) : bool :=
  match e with Calls _ => true | TimeoutRuns => false end.

(** The errors the runtime passed to [quit], during and after the executor. *)
Definition quit_errors (init : InitModule) (events : list Later) : list JsError :=
  omap (λ h, match h with Quit _ err => Some err | PreRun => None end) (during init) ++
  omap (λ e, match e with Calls (Quit _ err) => Some err | _ => None end) events.

(** What the closure keeps true once the executor has returned. *)
Definition settled_with_result (init : InitModule) (s : Closure) : Prop :=
  match result init with
  | inr v0 => finalModule s = v0 /\ forall v, promise s = Fulfilled v -> v = v0
  | inl _ => promise s <> Pending /\ forall v, promise s <> Fulfilled v
  end.

End GetModule.

(** * Properties of the kernel loader *)

Import Loader Loader.NativeClipperLibRequestedFormat.

Section LoaderFacts.

Variable require_init : NativeClipperLibLoadedFormat -> option ModuleVar.

Local Abbreviation load := (loadNativeClipperLibInstanceAsync require_init).

(** The three known modes and the flags the [switch] gives them. *)
Lemma switch_format_cases fmt :
  (fmt = WasmWithAsmJsFallback /\ switch_format fmt = Some (true, true)) \/
  (fmt = WasmOnly /\ switch_format fmt = Some (true, false)) \/
  (fmt = AsmJsOnly /\ switch_format fmt = Some (false, true)) \/
  (fmt <> WasmWithAsmJsFallback /\ fmt <> WasmOnly /\ fmt <> AsmJsOnly /\
   switch_format fmt = None).
Proof.
  unfold switch_format.
  destruct (decide (fmt = WasmWithAsmJsFallback)) as [->|?]; [tauto|].
  destruct (decide (fmt = WasmOnly)) as [->|?]; [tauto|].
  destruct (decide (fmt = AsmJsOnly)) as [->|?]; tauto.
Qed.

Lemma switch_format_known :
  switch_format WasmWithAsmJsFallback = Some (true, true) /\
  switch_format WasmOnly = Some (true, false) /\
  switch_format AsmJsOnly = Some (false, true).
Proof. by vm_compute. Qed.

(** Unfold one call down to the module variables, and split on everything the
    call looks at. *)
Ltac unfold_call :=
  unfold loadNativeClipperLibInstanceAsync, two_overlapping_calls, start,
    resume, wasm_block, asmJs_block, new_ClipperLibWrapper, record,
    set_moduleVar, moduleVar in *.

Ltac split_call st settle :=
  destruct st as [[|?|?] [|?|?] ? ?]; simpl in *; try discriminate;
  repeat match goal with
  | |- context [require_init ?f] => destruct (require_init f); simpl in *
  | |- context [settle ?f] => destruct (settle f); simpl in *
  | H : context [require_init ?f] |- _ => destruct (require_init f); simpl in *
  | H : context [settle ?f] |- _ => destruct (settle f); simpl in *
  end.

(** Split on what kind of value the variables in the goal are. *)
Ltac split_values :=
  repeat match goal with
  | |- context [match ?v with undefined => _ | instanceValue _ => _ | errorValue _ => _ end] =>
      is_var v; destruct v; simpl in *
  | H : context [match ?v with undefined => _ | instanceValue _ => _ | errorValue _ => _ end] |- _ =>
      is_var v; destruct v; simpl in *
  end.

(** A call that returns has allocated its wrapper at the end of the heap, and
    the variable of the wrapper's format holds the wrapper's instance. *)
Lemma load_Return_inv fmt settle st st' w :
  load fmt settle st = (st', Return w) ->
  exists f v,
    w = length (objects st) /\
    objects st' = objects st ++ [mkWrapper f v] /\
    moduleVar f st' = v.
Proof.
  intros H. unfold_call.
  destruct (switch_format fmt) as [[[|] [|]]|];
    split_call st settle; inversion H; subst; simpl;
    first [ by (eexists Wasm, _; eauto) | by (eexists AsmJs, _; eauto) ].
Qed.

(** A call never overwrites a cached instance, whatever it was asked. *)
Lemma load_keeps_instance fmt settle st f m :
  moduleVar f st = instanceValue m ->
  moduleVar f (load fmt settle st).1 = instanceValue m.
Proof.
  intros H. unfold_call.
  destruct (switch_format fmt) as [[[|] [|]]|], f;
    split_call st settle; congruence.
Qed.

(** A call only ever allocates: the heap it leaves extends the heap it found. *)
Lemma load_objects_grow fmt settle st :
  objects st `prefix_of` objects (load fmt settle st).1.
Proof.
  unfold_call.
  destruct (switch_format fmt) as [[[|] [|]]|];
    split_call st settle; solve [ reflexivity | by apply prefix_app_r ].
Qed.

Lemma serve_all_keeps_instance rs st f m :
  moduleVar f st = instanceValue m ->
  moduleVar f (serve_all require_init rs st) = instanceValue m.
Proof.
  revert st. induction rs as [|r rs IH]; intros st H; simpl; [done|].
  apply IH. unfold serve. by apply load_keeps_instance.
Qed.

Lemma serve_all_objects_grow rs st :
  objects st `prefix_of` objects (serve_all require_init rs st).
Proof.
  revert st. induction rs as [|r rs IH]; intros st; simpl; [done|].
  etrans; [|apply IH]. apply load_objects_grow.
Qed.

(** Reading back an object just allocated, and the one allocated before it. *)
Lemma lookup_allocated (objs : list ClipperLibWrapper) o :
  (objs ++ [o]) !! length objs = Some o.
Proof. by apply list_lookup_middle. Qed.


(** Counting the initializations in a trace that grew by known events. *)
Ltac count_initializations :=
  unfold native_initializations; simpl;
  rewrite ?filter_app, ?length_app, ?filter_cons, ?filter_nil;
  repeat case_decide; simpl; try congruence; try lia.


(** ** Calls in any interleaving *)

Import Schedule.

Local Abbreviation step := (Schedule.step require_init).
Local Abbreviation run := (Schedule.run require_init).

Lemma run_snoc steps s sys : run (steps ++ [s]) sys = step (run steps sys) s.
Proof. unfold Schedule.run. by rewrite fold_left_app. Qed.

Lemma run_cons s steps sys : run (s :: steps) sys = run steps (step sys s).
Proof. reflexivity. Qed.

(** Entering the loader, and resuming a suspended call, only ever allocate;
    the wrapper a call returns is the object allocated last, and the variable
    its format names holds its instance. *)
Lemma start_objects fmt st :
  objects st `prefix_of` objects (start require_init fmt st).1 /\
  (forall w, (start require_init fmt st).2 = Return w ->
     w = length (objects st) /\
     exists f v,
       objects (start require_init fmt st).1 = objects st ++ [mkWrapper f v] /\
       moduleVar f (start require_init fmt st).1 = v).
Proof.
  unfold_call.
  destruct (switch_format fmt) as [[[|] [|]]|];
    split_call st Outcome;
    (split; [solve [reflexivity | by apply prefix_app_r]|]);
    intros w Hw; inversion Hw; subst; (split; [done|]);
    first [ by (eexists Wasm, _; eauto) | by (eexists AsmJs, _; eauto) ].
Qed.

Lemma resume_objects c o st :
  objects st `prefix_of` objects (resume require_init c o st).1 /\
  (forall w, (resume require_init c o st).2 = Return w ->
     (c = Return w /\ (resume require_init c o st).1 = st) \/
     (c <> Return w /\
      w = length (objects st) /\
      exists f v,
        objects (resume require_init c o st).1 = objects st ++ [mkWrapper f v] /\
        moduleVar f (resume require_init c o st).1 = v)).
Proof.
  unfold_call.
  destruct c as [[|]| | |], o; split_call st Outcome;
    (split; [solve [reflexivity | by apply prefix_app_r]|]);
    intros w Hw; inversion Hw; subst;
    first [ by left
          | right; (split; [done|]); (split; [done|]);
            first [ by (eexists Wasm, _; eauto) | by (eexists AsmJs, _; eauto) ] ].
Qed.

Lemma step_objects_grow sys s :
  objects (loader sys) `prefix_of` objects (loader (step sys s)).
Proof.
  destruct s as [fmt|i o]; simpl.
  - pose proof (proj1 (start_objects fmt (loader sys))) as H.
    by destruct (start require_init fmt (loader sys)).
  - destruct (calls sys !! i) as [c|]; [|done].
    pose proof (proj1 (resume_objects c o (loader sys))) as H.
    by destruct (resume require_init c o (loader sys)).
Qed.

(** A call that has just returned holds an object that did not exist before
    the step, and the variable its format names holds its instance. *)
Lemma step_returns_new_wrapper sys s j w :
  calls (step sys s) !! j = Some (Return w) ->
  calls sys !! j <> Some (Return w) ->
  w = length (objects (loader sys)) /\
  exists o,
    objects (loader (step sys s)) = objects (loader sys) ++ [o] /\
    moduleVar (format o) (loader (step sys s)) = instance o.
Proof.
  destruct s as [fmt|k o]; simpl.
  - destruct (start_objects fmt (loader sys)) as [_ Hret].
    destruct (start require_init fmt (loader sys)) as [st c]; simpl in *.
    intros Hj Hold. apply lookup_app_Some in Hj as [Hj|[_ Hj]]; [done|].
    apply list_lookup_singleton_Some in Hj as [_ ->].
    destruct (Hret w eq_refl) as (-> & f & v & Hobjs & Hvar).
    split; [done|]. by exists (mkWrapper f v).
  - destruct (calls sys !! k) as [c|] eqn:Hk; [|done].
    destruct (resume_objects c o (loader sys)) as [_ Hret].
    destruct (resume require_init c o (loader sys)) as [st c']; simpl in *.
    intros Hj Hold. destruct (decide (j = k)) as [->|Hjk].
    + rewrite list_lookup_insert_eq in Hj by (by eapply lookup_lt_Some).
      injection Hj as ->.
      destruct (Hret w eq_refl) as [[-> _]|(_ & -> & f & v & Hobjs & Hvar)];
        [done|].
      split; [done|]. by exists (mkWrapper f v).
    + by rewrite list_lookup_insert_ne in Hj.
Qed.

Lemma step_wrappers_apart sys s :
  wrappers_apart sys -> wrappers_apart (step sys s).
Proof.
  intros [Hlt Hne].
  assert (Hcases : forall i w, calls (step sys s) !! i = Some (Return w) ->
            (calls sys !! i = Some (Return w) /\
             w < length (objects (loader sys))) \/
            (w = length (objects (loader sys)) /\
             length (objects (loader (step sys s))) =
               S (length (objects (loader sys))) /\
             forall j, j <> i -> calls (step sys s) !! j = calls sys !! j \/
                                 calls sys !! j = None)).
  { intros i w H.
    destruct (decide (calls sys !! i = Some (Return w))) as [Hold|Hnew].
    - left. split; [done|]. by eapply Hlt.
    - right.
      destruct (step_returns_new_wrapper sys s i w H Hnew) as (-> & o & Ho & _).
      split; [done|]. split; [rewrite Ho, length_app; simpl; lia|].
      intros j Hji. destruct s as [fmt|k o']; simpl in *.
      + destruct (start require_init fmt (loader sys)) as [st c]; simpl in *.
        destruct (calls sys !! j) eqn:Hj; [left|by right].
        by apply lookup_app_l_Some.
      + destruct (calls sys !! k) as [c|] eqn:Hk; [|by left].
        destruct (resume require_init c o' (loader sys)) as [st c']; simpl in *.
        left. destruct (decide (i = k)) as [->|Hik].
        * by rewrite list_lookup_insert_ne.
        * by rewrite list_lookup_insert_ne in H. }
  pose proof (prefix_length _ _ (step_objects_grow sys s)) as Hgrow.
  split.
  - intros i w H. destruct (Hcases i w H) as [[_ ?]|(-> & ? & _)]; lia.
  - intros i j wi wj Hij Hi Hj.
    destruct (Hcases i wi Hi) as [[Hi' ?]|(-> & ? & Hoi)],
             (Hcases j wj Hj) as [[Hj' ?]|(-> & ? & Hoj)]; try lia.
    + by eapply (Hne i j).
    + destruct (Hoi j ltac:(done)) as [Hsame|Hnone].
      * rewrite Hsame in Hj. apply Hlt in Hj. lia.
      * destruct (Hoj i Hij) as [Hsame'|Hnone'].
        -- rewrite Hsame' in Hi. apply Hlt in Hi. lia.
        -- exfalso. destruct s as [fmt|k o']; simpl in *.
           ++ destruct (start require_init fmt (loader sys)) as [st c]; simpl in *.
              apply lookup_lt_Some in Hi, Hj.
              apply lookup_ge_None in Hnone, Hnone'.
              rewrite length_app in Hi, Hj. simpl in *. lia.
           ++ destruct (calls sys !! k) as [c|] eqn:Hk;
                [|by rewrite Hnone in Hj].
              destruct (resume require_init c o' (loader sys)) as [st c'];
                simpl in *.
              apply lookup_lt_Some in Hj. rewrite length_insert in Hj.
              apply lookup_ge_None in Hnone. lia.
Qed.

Lemma run_wrappers_apart steps st : wrappers_apart (run steps (mkSystem st [])).
Proof.
  induction steps as [|s steps IH] using rev_ind.
  - split; simpl; intros *; by rewrite ?lookup_nil.
  - rewrite run_snoc. by apply step_wrappers_apart.
Qed.

(** Whatever the schedule, any two calls that return hold two different
    wrapper objects, overlapping or not. *)
Theorem run_returns_distinct_wrappers steps st i j wi wj :
  i <> j ->
  calls (run steps (mkSystem st [])) !! i = Some (Return wi) ->
  calls (run steps (mkSystem st [])) !! j = Some (Return wj) ->
  wi <> wj.
Proof.
  intros Hij Hi Hj. by eapply (proj2 (run_wrappers_apart steps st) i j).
Qed.








(** ** One call served alone *)

(** The events of a call, read off a trace that grew by known events. *)
Ltac read_events :=
  unfold events_since; simpl;
  rewrite <- ?(assoc_L (++)); rewrite ?drop_app_length, ?drop_all; simpl.

Ltac not_among_events :=
  rewrite ?elem_of_cons, ?elem_of_nil; intuition congruence.

(** C5: a requested format outside the three known modes makes the call throw
    the configuration error at once: the state, trace included, is the one the
    call found, so nothing was attempted, initialized or cached. *)
Theorem C5_unknown_format_rejected_before_loading fmt settle st :
  fmt <> WasmWithAsmJsFallback ->
  fmt <> WasmOnly ->
  fmt <> AsmJsOnly ->
  start require_init fmt st = (st, Throw (ClipperError unknown_format_message)) /\
  load fmt settle st = (st, Throw (ClipperError unknown_format_message)).
Proof.
  intros H1 H2 H3.
  destruct (switch_format_cases fmt) as [[? E]|[[? E]|[[? E]|(?&?&?&E)]]];
    try done.
  unfold loadNativeClipperLibInstanceAsync, start. by rewrite E.
Qed.

(** A format that holds an error is skipped: never attempted, never
    initialized, and its error stays. *)
Lemma load_failed_not_retried fmt settle st f e :
  moduleVar f st = errorValue e ->
  moduleVar f (load fmt settle st).1 = errorValue e /\
  (Attempt f ∉ events_since st (load fmt settle st).1) /\
  (InitCall f ∉ events_since st (load fmt settle st).1).
Proof.
  intros H. unfold_call.
  destruct (switch_format fmt) as [[[|] [|]]|], f;
    split_call st settle; try discriminate;
    read_events; (split; [congruence|split; not_among_events]).
Qed.

(** A call throws the generic error exactly when every format of its mode
    fails for it. *)
Lemma load_throws_generic_iff fmt settle st :
  all_applicable_fail require_init settle fmt st <->
  (load fmt settle st).2 = Throw (ClipperError could_not_load_message).
Proof.
  unfold all_applicable_fail, fails. unfold_call.
  destruct (switch_format_cases fmt) as [[? E]|[[? E]|[[? E]|(?&?&?&E)]]];
    rewrite E; split_call st settle; split;
    try done; try (intros [? ?]; tauto); try tauto; try discriminate;
    try (intros [H1 H2]; first [ by specialize (H1 eq_refl)
                               | by specialize (H2 eq_refl) ]).
Qed.

(** A failed attempt leaves in the format's variable the very value that was
    caught. *)
Lemma load_keeps_caught_value fmt settle st v :
  (forall ta,
     switch_format fmt = Some (true, ta) ->
     wasmModule st = undefined ->
     caught_value require_init settle Wasm = Some v ->
     wasmModule (load fmt settle st).1 = v) /\
  (forall tw,
     switch_format fmt = Some (tw, true) ->
     (tw = true -> fails require_init settle Wasm st = true) ->
     asmJsModule st = undefined ->
     caught_value require_init settle AsmJs = Some v ->
     asmJsModule (load fmt settle st).1 = v).
Proof.
  unfold caught_value, fails. unfold_call. split.
  - intros ta E Hu. rewrite E.
    destruct ta; split_call st settle; congruence.
  - intros tw E Hw Hu. rewrite E.
    destruct tw; split_call st settle; try congruence;
      by specialize (Hw eq_refl).
Qed.

(** C4, as amended: when every format of the requested mode fails for the
    call (its variable holds an Error, or its attempt fails in this call,
    [require] throwing or the promise being rejected), and only then, the call
    throws the one generic error, whatever was caught: the caught value is
    stored, as it is, in the failing format's variable and is not handed to
    the caller.  A format whose variable holds an Error is never attempted or
    initialized again, and keeps that Error. *)
Theorem C4_load_failure_is_generic_and_cached fmt settle st :
  (all_applicable_fail require_init settle fmt st <->
   (load fmt settle st).2 = Throw (ClipperError could_not_load_message)) /\
  (forall v,
     (forall ta,
        switch_format fmt = Some (true, ta) ->
        wasmModule st = undefined ->
        caught_value require_init settle Wasm = Some v ->
        wasmModule (load fmt settle st).1 = v) /\
     (forall tw,
        switch_format fmt = Some (tw, true) ->
        (tw = true -> fails require_init settle Wasm st = true) ->
        asmJsModule st = undefined ->
        caught_value require_init settle AsmJs = Some v ->
        asmJsModule (load fmt settle st).1 = v)) /\
  (forall f e,
     moduleVar f st = errorValue e ->
     moduleVar f (load fmt settle st).1 = errorValue e /\
     (Attempt f ∉ events_since st (load fmt settle st).1) /\
     (InitCall f ∉ events_since st (load fmt settle st).1)).
Proof.
  split; [apply load_throws_generic_iff|]. split.
  - intros v. apply load_keeps_caught_value.
  - intros f e. apply load_failed_not_retried.
Qed.

(** C3: [WasmOnly] does for Wasm exactly what the state calls for (an attempt
    when the variable is undefined, with the native initialization if
    [require] succeeds, and nothing otherwise) and nothing for AsmJs, whose
    variable it leaves alone; [AsmJsOnly] likewise with the formats swapped.
    [WasmWithAsmJsFallback] does the same for Wasm first and then, exactly when
    Wasm fails (its variable held an Error, or it was attempted in this call
    and failed), the same for AsmJs; it returns an AsmJs wrapper only then.
    The two variables are independent: what a request for one format does is
    the same whatever the other format's variable holds. *)
Theorem C3_formats_attempted_in_mode_order settle st :
  (let st' := (load WasmOnly settle st).1 in
   events_since st st' = attempt_events require_init Wasm st /\
   asmJsModule st' = asmJsModule st /\
   (forall w o,
      (load WasmOnly settle st).2 = Return w ->
      objects st' !! w = Some o ->
      format o = Wasm)) /\
  (let st' := (load AsmJsOnly settle st).1 in
   events_since st st' = attempt_events require_init AsmJs st /\
   wasmModule st' = wasmModule st /\
   (forall w o,
      (load AsmJsOnly settle st).2 = Return w ->
      objects st' !! w = Some o ->
      format o = AsmJs)) /\
  (let st' := (load WasmWithAsmJsFallback settle st).1 in
   events_since st st' =
     attempt_events require_init Wasm st ++
     (if fails require_init settle Wasm st
      then attempt_events require_init AsmJs st else []) /\
   (fails require_init settle Wasm st = false -> asmJsModule st' = asmJsModule st) /\
   (forall w o,
      (load WasmWithAsmJsFallback settle st).2 = Return w ->
      objects st' !! w = Some o ->
      format o = (if fails require_init settle Wasm st then AsmJs else Wasm))) /\
  (forall v,
     load AsmJsOnly settle (set_moduleVar Wasm v st) =
     (set_moduleVar Wasm v (load AsmJsOnly settle st).1,
      (load AsmJsOnly settle st).2)) /\
  (forall v,
     load WasmOnly settle (set_moduleVar AsmJs v st) =
     (set_moduleVar AsmJs v (load WasmOnly settle st).1,
      (load WasmOnly settle st).2)).
Proof.
  destruct switch_format_known as (Eb & Ew & Ea).
  unfold attempt_events, fails.
  repeat split.
  - unfold_call. rewrite Ew. split_call st settle; by read_events.
  - unfold_call. rewrite Ew. by split_call st settle.
  - intros w o Hret Hw. unfold_call. rewrite Ew in *.
    split_call st settle; try done;
      injection Hret as <-; rewrite lookup_allocated in Hw; by injection Hw as <-.
  - unfold_call. rewrite Ea. split_call st settle; by read_events.
  - unfold_call. rewrite Ea. by split_call st settle.
  - intros w o Hret Hw. unfold_call. rewrite Ea in *.
    split_call st settle; try done;
      injection Hret as <-; rewrite lookup_allocated in Hw; by injection Hw as <-.
  - unfold_call. rewrite Eb. split_call st settle; by read_events.
  - unfold_call. rewrite Eb. by split_call st settle.
  - intros w o Hret Hw. unfold_call. rewrite Eb in *.
    split_call st settle; try done;
      injection Hret as <-; rewrite lookup_allocated in Hw; by injection Hw as <-.
  - intros v. unfold_call. rewrite Ea. by split_call st settle.
  - intros v. unfold_call. rewrite Ew. by split_call st settle.
Qed.

(** For a call served alone whose promises settle, the result is fixed mode
    by mode: [WasmOnly] and [AsmJsOnly] return the obtainable value of their
    format in a wrapper naming it and throw the generic error otherwise; the
    fallback mode returns Wasm when it is obtainable, else AsmJs when that is,
    else throws. *)
Theorem load_outcome_by_mode settle st :
  outcome_of (load WasmOnly settle st) =
    Some (match obtainable require_init settle Wasm st with
          | Some v => inr (mkWrapper Wasm v)
          | None => inl (ClipperError could_not_load_message)
          end) /\
  outcome_of (load AsmJsOnly settle st) =
    Some (match obtainable require_init settle AsmJs st with
          | Some v => inr (mkWrapper AsmJs v)
          | None => inl (ClipperError could_not_load_message)
          end) /\
  outcome_of (load WasmWithAsmJsFallback settle st) =
    Some (match obtainable require_init settle Wasm st with
          | Some v => inr (mkWrapper Wasm v)
          | None =>
              match obtainable require_init settle AsmJs st with
              | Some v => inr (mkWrapper AsmJs v)
              | None => inl (ClipperError could_not_load_message)
              end
          end).
Proof.
  destruct switch_format_known as (Eb & Ew & Ea).
  unfold outcome_of, obtainable. unfold_call.
  rewrite Eb, Ew, Ea.
  repeat split; split_call st settle; by rewrite ?lookup_allocated.
Qed.

(** The fallback mode is [WasmOnly] followed, when that throws, by [AsmJsOnly]
    on the state the failed attempt left. *)
Theorem fallback_is_wasm_then_asmJs settle st :
  load WasmWithAsmJsFallback settle st =
  match load WasmOnly settle st with
  | (st1, Throw _) => load AsmJsOnly settle st1
  | r => r
  end.
Proof.
  destruct switch_format_known as (Eb & Ew & Ea).
  unfold_call. rewrite Eb, Ew, Ea.
  by split_call st settle.
Qed.

(** A call stores in the variable of a format it attempts exactly the value
    the attempt delivered, whatever it is, and leaves a variable that is not
    undefined as it found it; the fallback mode touches the AsmJs variable
    only when Wasm fails. *)
Theorem load_stores_what_was_delivered settle st :
  let after f :=
    match moduleVar f st with
    | undefined => delivered_value require_init settle f
    | v => v
    end in
  wasmModule (load WasmOnly settle st).1 = after Wasm /\
  asmJsModule (load AsmJsOnly settle st).1 = after AsmJs /\
  wasmModule (load WasmWithAsmJsFallback settle st).1 = after Wasm /\
  asmJsModule (load WasmWithAsmJsFallback settle st).1 =
    (if fails require_init settle Wasm st then after AsmJs else asmJsModule st).
Proof.
  destruct switch_format_known as (Eb & Ew & Ea).
  unfold delivered_value, fails. unfold_call. rewrite Eb, Ew, Ea.
  repeat split; by split_call st settle.
Qed.

(** One call served alone changes nothing about a decided format: its
    variable and its count of native initializations stay. *)
Lemma load_decided_is_kept fmt settle st f :
  moduleVar f st <> undefined ->
  moduleVar f (load fmt settle st).1 = moduleVar f st /\
  native_initializations f (load fmt settle st).1 = native_initializations f st.
Proof.
  intros H. unfold_call.
  destruct (switch_format fmt) as [[[|] [|]]|], f;
    split_call st settle; try done; split; try done; count_initializations.
Qed.

(** One call served alone initializes a format at most once, and, when what
    the attempt delivers is not undefined, not without deciding it. *)
Lemma load_initializes_at_most_once fmt settle st f :
  native_initializations f (load fmt settle st).1 <= S (native_initializations f st) /\
  (delivered_value require_init settle f <> undefined ->
   moduleVar f (load fmt settle st).1 = undefined ->
   native_initializations f (load fmt settle st).1 = native_initializations f st).
Proof.
  unfold delivered_value. unfold_call.
  destruct (switch_format fmt) as [[[|] [|]]|], f;
    split_call st settle; split; try done; try count_initializations;
    intros Hd Hu; try done; count_initializations.
Qed.

Lemma serve_all_cons r rs st :
  serve_all require_init (r :: rs) st =
  serve_all require_init rs (load (requested r) (settles r) st).1.
Proof. reflexivity. Qed.

(** In a queue of calls served one after another, a decided format is
    terminal: whatever is requested, its variable keeps the module or the
    error it holds, and it is never initialized again. *)
Theorem serve_all_decided_is_terminal rs st f :
  moduleVar f st <> undefined ->
  moduleVar f (serve_all require_init rs st) = moduleVar f st /\
  native_initializations f (serve_all require_init rs st) =
    native_initializations f st.
Proof.
  revert st. induction rs as [|r rs IH]; intros st H; [done|].
  rewrite serve_all_cons.
  destruct (load_decided_is_kept (requested r) (settles r) st f H) as [Hv Hn].
  destruct (IH (load (requested r) (settles r) st).1) as [Hv' Hn'];
    [by rewrite Hv|].
  split; [by rewrite Hv', Hv | by rewrite Hn', Hn].
Qed.

(** In a queue of calls served one after another in which no attempt at a
    format delivers [undefined], that format is initialized at most once,
    however many calls ask for it and in whatever modes. *)
Theorem serve_all_initializes_at_most_once rs st f :
  Forall (λ r, delivered_value require_init (settles r) f <> undefined) rs ->
  native_initializations f (serve_all require_init rs st) <=
    S (native_initializations f st).
Proof.
  intros Hrs. revert st.
  induction Hrs as [|r rs Hr _ IH]; intros st; [simpl; lia|].
  rewrite serve_all_cons.
  destruct (load_initializes_at_most_once (requested r) (settles r) st f)
    as [Hle Hun].
  destruct (moduleVar f (load (requested r) (settles r) st).1) eqn:Hvar.
  - specialize (IH (load (requested r) (settles r) st).1).
    rewrite (Hun Hr eq_refl) in IH. exact IH.
  - destruct (serve_all_decided_is_terminal rs
                (load (requested r) (settles r) st).1 f) as [_ ->];
      [by rewrite Hvar | exact Hle].
  - destruct (serve_all_decided_is_terminal rs
                (load (requested r) (settles r) st).1 f) as [_ ->];
      [by rewrite Hvar | exact Hle].
Qed.

(** ** Counting initializations in any interleaving *)

Lemma awaiting_wasm_snoc cs c :
  awaiting_wasm (cs ++ [c]) = awaiting_wasm cs + (if is_AwaitWasm c then 1 else 0).
Proof.
  unfold awaiting_wasm. rewrite filter_app, length_app, filter_cons, filter_nil.
  destruct c; by case_decide.
Qed.

Lemma awaiting_wasm_insert cs i c c' :
  cs !! i = Some c ->
  awaiting_wasm (<[i:=c']> cs) + (if is_AwaitWasm c then 1 else 0) =
  awaiting_wasm cs + (if is_AwaitWasm c' then 1 else 0).
Proof.
  intros H. unfold awaiting_wasm.
  rewrite insert_take_drop by (by eapply lookup_lt_Some).
  rewrite <- (take_drop_middle cs i c H) at 3.
  rewrite !filter_app, !length_app, !filter_cons.
  destruct c, c'; repeat case_decide; simpl in *; try done; lia.
Qed.

Lemma start_initializations fmt st f :
  native_initializations f (start require_init fmt st).1 +
    may_still_initialize f [(start require_init fmt st).2] <=
  S (native_initializations f st).
Proof.
  unfold may_still_initialize, awaiting_wasm. unfold_call.
  destruct (switch_format fmt) as [[[|] [|]]|], f;
    split_call st Outcome; count_initializations.
Qed.

Lemma resume_initializations c o st f :
  native_initializations f (resume require_init c o st).1 +
    may_still_initialize f [(resume require_init c o st).2] <=
  native_initializations f st + may_still_initialize f [c].
Proof.
  unfold may_still_initialize, awaiting_wasm. unfold_call.
  destruct c as [[|]| | |], o, f; split_call st Outcome; count_initializations.
Qed.

Lemma step_initializations sys s f :
  native_initializations f (loader (step sys s)) +
    may_still_initialize f (calls (step sys s)) <=
  native_initializations f (loader sys) + may_still_initialize f (calls sys) +
    (if is_StartCall s then 1 else 0).
Proof.
  destruct s as [fmt|i o]; simpl.
  - pose proof (start_initializations fmt (loader sys) f) as H.
    destruct (start require_init fmt (loader sys)) as [st c]; simpl in *.
    destruct f; simpl in *; [lia|].
    rewrite awaiting_wasm_snoc. unfold awaiting_wasm in H.
    rewrite filter_cons, filter_nil in H.
    destruct c; case_decide; simpl in *; try done; lia.
  - destruct (calls sys !! i) as [c|] eqn:Hi; [|lia].
    pose proof (resume_initializations c o (loader sys) f) as H.
    destruct (resume require_init c o (loader sys)) as [st c']; simpl in *.
    destruct f; simpl in *; [lia|].
    pose proof (awaiting_wasm_insert _ _ _ c' Hi) as Hins.
    unfold awaiting_wasm in H. rewrite !filter_cons, !filter_nil in H.
    destruct c, c'; repeat case_decide; simpl in *; try done; lia.
Qed.

Lemma entries_snoc steps s :
  entries (steps ++ [s]) = entries steps + (if is_StartCall s then 1 else 0).
Proof.
  unfold entries. rewrite filter_app, length_app, filter_cons, filter_nil.
  destruct s; by case_decide.
Qed.

(** Whatever the schedule, a format is initialized at most once per call that
    entered the loader: no call runs the native initialization of a format
    twice. *)
Theorem run_initializes_at_most_once_per_call steps st f :
  native_initializations f (loader (run steps (mkSystem st []))) <=
  native_initializations f st + entries steps.
Proof.
  assert (H : native_initializations f (loader (run steps (mkSystem st []))) +
              may_still_initialize f (calls (run steps (mkSystem st []))) <=
              native_initializations f st + entries steps).
  { induction steps as [|s steps IH] using rev_ind.
    - unfold Schedule.run, entries, may_still_initialize, awaiting_wasm.
      destruct f; simpl; rewrite ?filter_nil; simpl; lia.
    - rewrite run_snoc, entries_snoc.
      pose proof (step_initializations (run steps (mkSystem st [])) s f). lia. }
  lia.
Qed.

(** Entering while the requested format is undecided leaves it undecided and
    runs one native initialization. *)
Lemma start_undecided fmt st f :
  requests fmt f ->
  moduleVar f st = undefined ->
  require_init f = None ->
  moduleVar f (start require_init fmt st).1 = undefined /\
  native_initializations f (start require_init fmt st).1 =
    S (native_initializations f st) /\
  ~ completed (start require_init fmt st).2.
Proof.
  intros Hreq Hvar Hinit. unfold_call.
  destruct (switch_format_cases fmt) as [[? E]|[[? E]|[[? E]|(?&?&?&E)]]];
    rewrite E; destruct f; simpl in Hreq; subst;
    try (destruct Hreq; discriminate); try discriminate;
    try (destruct Hreq; congruence); try congruence;
    destruct st as [? ? ? ?]; simpl in *; subst; rewrite Hinit; simpl;
    (repeat split; [count_initializations | tauto]).
Qed.

(** However many calls enter before any promise settles, each of them runs
    the native initialization of the format they ask for: [n] overlapping
    calls, [n] initializations. *)
Theorem overlapping_entries_each_initialize n fmt f sys :
  requests fmt f ->
  moduleVar f (loader sys) = undefined ->
  require_init f = None ->
  native_initializations f (loader (run (replicate n (StartCall fmt)) sys)) =
  n + native_initializations f (loader sys).
Proof.
  intros Hreq Hvar Hinit. revert sys Hvar.
  induction n as [|n IH]; intros sys Hvar; [done|].
  simpl replicate. rewrite run_cons.
  destruct (start_undecided fmt (loader sys) f Hreq Hvar Hinit) as (Hu & Hn & _).
  rewrite IH.
  - simpl. destruct (start require_init fmt (loader sys)); simpl in *. lia.
  - simpl. by destruct (start require_init fmt (loader sys)).
Qed.

(** ** Where the values come from *)

Ltac among_known :=
  unfold known, cached; simpl;
  rewrite ?fmap_app; simpl;
  rewrite ?elem_of_app, ?elem_of_cons, ?elem_of_nil; simpl;
  rewrite ?elem_of_app, ?elem_of_cons, ?elem_of_nil;
  intuition (subst; eauto).

Lemma start_known fmt st m :
  m ∈ known (start require_init fmt st).1 ->
  m ∈ known st \/ exists f, require_init f = Some m.
Proof.
  unfold_call.
  destruct (switch_format fmt) as [[[|] [|]]|];
    destruct st as [[|?|?] [|?|?] ? ?]; simpl;
    destruct (require_init Wasm) eqn:?, (require_init AsmJs) eqn:?; simpl;
    split_values; among_known.
Qed.

Lemma resume_known c o st m :
  m ∈ known (resume require_init c o st).1 ->
  m ∈ known st \/ o = Resolved m \/ o = Rejected m \/
  exists f, require_init f = Some m.
Proof.
  unfold_call.
  destruct c as [[|]| | |], o;
    destruct st as [[|?|?] [|?|?] ? ?]; simpl;
    destruct (require_init AsmJs) eqn:?; simpl;
    split_values; among_known.
Qed.

Lemma delivered_snoc steps s :
  delivered (steps ++ [s]) =
  delivered steps ++
    match s with
    | Settle _ (Resolved v) | Settle _ (Rejected v) => [v]
    | StartCall _ => []
    end.
Proof.
  unfold delivered. rewrite omap_app. f_equal. by destruct s as [|? []].
Qed.

(** Whatever the schedule, the loader makes up no value: every value in its
    variables or in a wrapper it built was there at the outset, or was
    delivered by a settlement of the schedule, fulfilled or rejected, or
    thrown by [require]. *)
Theorem run_holds_only_delivered_values steps sys m :
  m ∈ known (loader (run steps sys)) ->
  m ∈ known (loader sys) \/ m ∈ delivered steps \/
  exists f, require_init f = Some m.
Proof.
  induction steps as [|s steps IH] using rev_ind; [by left|].
  rewrite run_snoc, delivered_snoc, elem_of_app.
  destruct s as [fmt|i o]; simpl.
  - pose proof (start_known fmt (loader (run steps sys)) m) as H.
    destruct (start require_init fmt (loader (run steps sys))); simpl in *.
    intros Hm. destruct (H Hm) as [Hk|Hr]; [|by auto].
    destruct (IH Hk) as [?|[?|?]]; auto.
  - destruct (calls (run steps sys) !! i) as [c|];
      [|intros Hm; destruct (IH Hm) as [?|[?|?]]; auto].
    pose proof (resume_known c o (loader (run steps sys)) m) as H.
    destruct (resume require_init c o (loader (run steps sys))); simpl in *.
    intros Hm. destruct (H Hm) as [Hk|[->|[->|Hr]]].
    + destruct (IH Hk) as [?|[?|?]]; auto.
    + right. left. right. apply list_elem_of_here.
    + right. left. right. apply list_elem_of_here.
    + auto.
Qed.

(** ** Overlapping calls and their settlements *)

(** With two overlapping calls the settlement that comes last decides the
    cache.  A rejection arriving after a resolution replaces the loaded module
    by the error, so that later calls for the format throw although one caller
    holds a working wrapper; a resolution arriving after a rejection replaces
    the error by the module. *)
Theorem overlapping_calls_last_settlement_wins f st m e :
  moduleVar f st = undefined ->
  require_init f = None ->
  (exists s4 a,
     two_overlapping_calls require_init (only f)
       (Resolved (instanceValue m)) (Rejected (errorValue e)) st =
       (s4, a, Throw (ClipperError could_not_load_message)) /\
     returned_instance s4 a = Some (instanceValue m) /\
     moduleVar f s4 = errorValue e /\
     forall settle,
       outcome_of (load (only f) settle s4) =
       Some (inl (ClipperError could_not_load_message))) /\
  (exists s4 b,
     two_overlapping_calls require_init (only f)
       (Rejected (errorValue e)) (Resolved (instanceValue m)) st =
       (s4, Throw (ClipperError could_not_load_message), b) /\
     returned_instance s4 b = Some (instanceValue m) /\
     moduleVar f s4 = instanceValue m).
Proof.
  intros Hvar Hinit.
  destruct switch_format_known as (Eb & Ew & Ea).
  destruct st as [w a objs tr].
  destruct f; simpl in Hvar, Hinit; subst; unfold outcome_of; unfold_call;
    simpl only; rewrite ?Ew, ?Ea; simpl; rewrite Hinit; simpl.
  - split; eexists _, _; (split; [reflexivity|]); simpl;
      rewrite ?lookup_allocated; by repeat split.
  - split; eexists _, _; (split; [reflexivity|]); simpl;
      rewrite ?lookup_allocated; by repeat split.
Qed.

(** Resuming a call completes it, unless it was the Wasm [await] of a
    fallback call that got rejected while AsmJs is undecided. *)
Lemma resume_completes c o st :
  completed (resume require_init c o st).2 \/
  ((resume require_init c o st).2 = AwaitAsmJs /\
   c = AwaitWasm true /\
   asmJsModule st = undefined /\
   exists e, o = Rejected e).
Proof.
  unfold_call.
  destruct c as [[|]| | |], o; split_call st Outcome; eauto 8; by left.
Qed.

Lemma start_AwaitWasm fmt st :
  (start require_init fmt st).2 = AwaitWasm true ->
  fmt = WasmWithAsmJsFallback /\
  asmJsModule (start require_init fmt st).1 = asmJsModule st.
Proof.
  unfold_call.
  destruct (switch_format_cases fmt) as [[? E]|[[? E]|[[? E]|(?&?&?&E)]]];
    rewrite E; split_call st Outcome; done.
Qed.

(** A call awaits at most two promises: after two settlements it has returned
    or thrown, and it awaits a second one only in the fallback mode, when the
    Wasm promise was rejected and AsmJs is undecided. *)
Theorem call_awaits_at_most_twice fmt st o1 o2 :
  let r1 := start require_init fmt st in
  let r2 := resume require_init r1.2 o1 r1.1 in
  let r3 := resume require_init r2.2 o2 r2.1 in
  completed r3.2 /\
  (~ completed r2.2 ->
   fmt = WasmWithAsmJsFallback /\
   r1.2 = AwaitWasm true /\
   r2.2 = AwaitAsmJs /\
   asmJsModule st = undefined /\
   exists e, o1 = Rejected e).
Proof.
  intros r1 r2 r3. split.
  - destruct (resume_completes r2.2 o2 r2.1) as [H|(_ & H & _)]; [exact H|].
    exfalso. unfold r2 in H.
    destruct (resume_completes r1.2 o1 r1.1) as [Hc|(Hc & _)];
      rewrite H in Hc; done.
  - intros Hn. unfold r2 in *.
    destruct (resume_completes r1.2 o1 r1.1) as [Hc|(H2 & H1 & Ha & He)];
      [done|].
    destruct (start_AwaitWasm fmt st H1) as [-> Hkeep].
    repeat split; try done. by rewrite <- Hkeep.
Qed.

End LoaderFacts.

(** ** The loader on concrete runs *)

Import Schedule.





(** A fallback call on a fresh process whose Wasm promise is rejected and
    whose AsmJs promise is fulfilled: Wasm is attempted and initialized first,
    then AsmJs, and the wrapper returned is an AsmJs one. *)
Lemma C3_fallback_run_witness :
  let settle f :=
    match f with
    | Wasm => Rejected (errorValue "no wasm")
    | AsmJs => Resolved (instanceValue 3)
    end in
  let call := loadNativeClipperLibInstanceAsync found WasmWithAsmJsFallback settle in
  events_since initial (call initial).1 =
    [Attempt Wasm; InitCall Wasm; Attempt AsmJs; InitCall AsmJs] /\
  (forall w o,
     (call initial).2 = Return w ->
     objects (call initial).1 !! w = Some o ->
     format o = AsmJs).
Proof.
  intros settle call.
  destruct (C3_formats_attempted_in_mode_order found settle initial)
    as (_ & _ & (Hev & _ & Hfmt) & _).
  split; [exact Hev | exact Hfmt].
Defined.

(** C4 fails as stated: a [WasmOnly] call whose native runtime fails throws
    the generic error, the same whatever the cause, and not the failure the
    specification words. *)
Lemma C4_load_failure_counterexample :
  let thrown cause :=
    (loadNativeClipperLibInstanceAsync found WasmOnly
       (λ _, Rejected (errorValue cause)) initial).2 in
  thrown "fetch failed" = Throw (ClipperError could_not_load_message) /\
  thrown "fetch failed" = thrown "instantiation failed" /\
  thrown "fetch failed" <> Throw (spec_load_failure (Some "fetch failed")).
Proof.
  repeat split; [by vm_compute..|]. vm_compute. discriminate.
Qed.

(** A [WasmOnly] call whose promise is rejected with an Error, and a second
    one made after it. *)
Lemma C4_load_failure_witness :
  let settle := λ _ : NativeClipperLibLoadedFormat, Rejected (errorValue "fetch failed") in
  let call := loadNativeClipperLibInstanceAsync found WasmOnly settle in
  let st1 := (call initial).1 in
  all_applicable_fail found settle WasmOnly initial /\
  (call initial).2 = Throw (ClipperError could_not_load_message) /\
  wasmModule st1 = errorValue "fetch failed" /\
  moduleVar Wasm (call st1).1 = errorValue "fetch failed" /\
  (Attempt Wasm ∉ events_since st1 (call st1).1) /\
  (InitCall Wasm ∉ events_since st1 (call st1).1).
Proof.
  intros settle call st1.
  assert (Hfail : all_applicable_fail found settle WasmOnly initial)
    by (vm_compute; split; [done | discriminate]).
  destruct (C4_load_failure_is_generic_and_cached found WasmOnly settle initial)
    as (Hthrow & Hkept & _).
  destruct (C4_load_failure_is_generic_and_cached found WasmOnly settle st1)
    as (_ & _ & Hskip).
  split; [exact Hfail|].
  split; [exact (proj1 Hthrow Hfail)|].
  split; [exact (proj1 (Hkept (errorValue "fetch failed")) false
                   eq_refl eq_refl eq_refl)|].
  exact (Hskip Wasm "fetch failed" eq_refl).
Defined.

Lemma C5_unknown_format_witness :
  "wasm" <> WasmWithAsmJsFallback /\
  "wasm" <> WasmOnly /\
  "wasm" <> AsmJsOnly /\
  start found "wasm" initial =
    (initial, Throw (ClipperError unknown_format_message)) /\
  loadNativeClipperLibInstanceAsync found "wasm"
    (λ _, Resolved (instanceValue 1)) initial =
    (initial, Throw (ClipperError unknown_format_message)).
Proof.
  split; [discriminate|].
  split; [discriminate|].
  split; [discriminate|].
  apply (C5_unknown_format_rejected_before_loading found "wasm"
           (λ _, Resolved (instanceValue 1)) initial);
    discriminate.
Defined.



(** * Properties of the operation facade *)

Import Facade.

(** C6: without a [distance] argument [cleanPolygon] and [cleanPolygons] hand
    the kernel the threshold 1.1415.  Its square is below 2, it lies more than
    0.27 under 1.41421, and the vertex (1,1), whose coordinates each differ by
    one unit from those of (0,0), is not within it. *)
Theorem C6_default_distance_is_below_sqrt2 :
  (forall clean this path,
     cleanPolygon clean this path None = clean (instance this) path 1.1415%Q) /\
  (forall clean this paths,
     cleanPolygons clean this paths None = clean (instance this) paths 1.1415%Q) /\
  (default_distance * default_distance < 2)%Q /\
  (default_distance + 0.27 < 1.41421)%Q /\
  ~ within_distance (mkPoint 0 0) (mkPoint 1 1) default_distance.
Proof.
  repeat split; try reflexivity.
  unfold within_distance. vm_compute. intros H. by apply H.
Qed.

(** C7: a clip operation with an open path among its subjects makes
    [clipToPaths] raise the usage error, whatever the kernel would answer; no
    paths are returned. *)
Theorem C7_open_subject_is_a_usage_error
    (kernel_clip : ModuleVar -> ClipData -> Paths + Z)
    (this : ClipperLibWrapper) (d : ClipData) :
  (exists i, i ∈ subjectInputs d /\ closed i = false) ->
  clipToPaths kernel_clip this d = Raise UsagePrecondition.
Proof.
  intros (i & Hin & Hopen).
  unfold clipToPaths, functions_clipToPaths.
  replace (has_open_subject d) with true; [done|].
  symmetry. unfold has_open_subject. apply existsb_exists.
  exists i. split; [by apply list_elem_of_In|]. by rewrite Hopen.
Qed.

Lemma C7_open_subject_witness :
  let polyline := mkClipInput [mkPoint 0 0; mkPoint 10 0; mkPoint 10 10] false in
  let square :=
    mkClipInput [mkPoint 5 5; mkPoint 15 5; mkPoint 15 15; mkPoint 5 15] true in
  let d := mkClipData Intersection [square; polyline] [square] EvenOdd EvenOdd in
  (exists i, i ∈ subjectInputs d /\ closed i = false) /\
  clipToPaths (λ _ _, inl []) (mkWrapper Wasm (instanceValue 1)) d = Raise UsagePrecondition.
Proof.
  intros polyline square d.
  assert (Hopen : exists i, i ∈ subjectInputs d /\ closed i = false).
  { exists polyline. split; [|reflexivity].
    simpl. apply list_elem_of_further, list_elem_of_here. }
  split; [exact Hopen|].
  exact (C7_open_subject_is_a_usage_error (λ _ _, inl []) (mkWrapper Wasm (instanceValue 1)) d Hopen).
Defined.

Section Area.

Open Scope Z_scope.

Lemma cross_antisym p q : cross p q = - cross q p.
Proof. unfold cross. lia. Qed.

Lemma cross_self p : cross p p = 0.
Proof. unfold cross. lia. Qed.

Lemma last_cons (p d : IntPoint) (l : Path) :
  List.last (p :: l) d = List.last l p.
Proof.
  revert p d. induction l as [|q l IH]; intros p d; [done|].
  change (List.last (p :: q :: l) d) with (List.last (q :: l) d).
  by rewrite !IH.
Qed.

Lemma chain_sum_snoc p l q :
  chain_sum p (l ++ [q]) = chain_sum p l + cross (List.last l p) q.
Proof.
  revert p. induction l as [|r l IH]; intros p; simpl chain_sum.
  - simpl. lia.
  - rewrite IH, last_cons. lia.
Qed.

Lemma open_sum_snoc path q d :
  open_sum (path ++ [q]) =
  open_sum path + match path with [] => 0 | _ => cross (List.last path d) q end.
Proof.
  destruct path as [|p l]; [done|].
  simpl open_sum. rewrite chain_sum_snoc, last_cons. done.
Qed.

Lemma last_rev (path : Path) d : List.last (rev path) d = List.hd d path.
Proof. destruct path as [|p l]; [done|]. simpl. apply last_last. Qed.

Lemma hd_rev (path : Path) d : List.hd d (rev path) = List.last path d.
Proof.
  rewrite <- (rev_involutive path) at 2. by rewrite last_rev.
Qed.

Lemma open_sum_rev path : open_sum (rev path) = - open_sum path.
Proof.
  induction path as [|p l IH]; [done|].
  simpl rev. rewrite (open_sum_snoc _ _ p), IH.
  destruct l as [|q l]; [done|].
  rewrite last_rev. simpl List.hd.
  destruct (rev (q :: l)) eqn:E.
  - apply (f_equal length) in E. rewrite length_rev in E. done.
  - simpl open_sum. rewrite (cross_antisym q p). lia.
Qed.

Lemma cross_sum_closing path d :
  cross_sum path = open_sum path + cross (List.last path d) (List.hd d path).
Proof.
  destruct path as [|p l]; simpl.
  - rewrite cross_self. lia.
  - destruct l; [done|]. by rewrite <- (last_cons p d).
Qed.

(** Reversing a contour negates the sum of its cross products. *)
Lemma cross_sum_rev path : cross_sum (rev path) = - cross_sum path.
Proof.
  rewrite (cross_sum_closing (rev path) (mkPoint 0 0)),
    (cross_sum_closing path (mkPoint 0 0)).
  rewrite open_sum_rev, last_rev, hd_rev.
  rewrite (cross_antisym (List.hd _ _)). lia.
Qed.

Lemma functions_area_rev path :
  functions_area (rev path) = (- functions_area path)%Q.
Proof. unfold functions_area. rewrite cross_sum_rev. apply (Qred_opp (_ # 2)). Qed.

End Area.

(** C8: for a path held by the caller, the area read after [reversePath] has
    reversed it in place is the negation of the area read before. *)
Theorem C8_area_of_reversed_path_is_negated (h : PathStore) (ref : nat) (path : Path) :
  h !! ref = Some path ->
  area h ref = Some (functions_area path) /\
  reversePath ref h !! ref = Some (rev path) /\
  area (reversePath ref h) ref = Some (- functions_area path)%Q.
Proof.
  intros Hpath. unfold area, reversePath, functions_reversePath.
  rewrite lookup_alter_eq, Hpath. simpl.
  by rewrite functions_area_rev.
Qed.

(** The unit square, counter-clockwise: area 1 before, -1 after. *)
Lemma C8_area_of_reversed_path_witness :
  let square := [mkPoint 0 0; mkPoint 1 0; mkPoint 1 1; mkPoint 0 1] in
  let h : PathStore := {[ 0 := square ]} in
  h !! 0 = Some square /\
  area h 0 = Some 1%Q /\
  reversePath 0 h !! 0 = Some (rev square) /\
  area (reversePath 0 h) 0 = Some (- 1)%Q.
Proof.
  intros square h.
  split; [reflexivity|].
  apply (C8_area_of_reversed_path_is_negated h 0 square); reflexivity.
Defined.

(** * Properties of getModuleAsync *)

Section GetModuleFacts.

Import GetModule.

Ltac unfold_hooks :=
  unfold later, call_hook, timeout, preRun, quit, resolve, reject in *.

Lemma getModuleAsync_snoc init events e :
  getModuleAsync init (events ++ [e]) =
  promise (later (fold_left later events (executor init)) e).
Proof. unfold getModuleAsync. by rewrite fold_left_app. Qed.

(** An event leaves a settled promise as it is. *)
Lemma later_settled s e :
  promise s <> Pending -> promise (later s e) = promise s.
Proof.
  intros H. unfold_hooks.
  destruct s as [fm [|v|err] [|n]], e as [[|code err']|]; simpl in *;
    try done; by destruct fm.
Qed.

Lemma fold_later_settled events s :
  promise s <> Pending -> promise (fold_left later events s) = promise s.
Proof.
  revert s. induction events as [|e events IH]; intros s H; [done|].
  simpl. rewrite IH; [by apply later_settled|].
  by rewrite later_settled.
Qed.

(** The promise settles once: after it is fulfilled or rejected, no call of
    [preRun] or [quit] and no timeout changes it. *)
Theorem getModuleAsync_settles_once init events more :
  getModuleAsync init events <> Pending ->
  getModuleAsync init (events ++ more) = getModuleAsync init events.
Proof.
  intros H. unfold getModuleAsync in *. rewrite fold_left_app.
  by apply fold_later_settled.
Qed.

(** While [initModule] runs, [finalModule] is not set, so no hook fulfils the
    promise: it is pending or rejected by [quit]. *)
Lemma during_init hooks :
  let s := fold_left call_hook hooks (mkClosure None Pending 0) in
  finalModule s = None /\ forall v, promise s <> Fulfilled v.
Proof.
  assert (H : forall s, finalModule s = None -> (forall v, promise s <> Fulfilled v) ->
            finalModule (fold_left call_hook hooks s) = None /\
            forall v, promise (fold_left call_hook hooks s) <> Fulfilled v).
  { induction hooks as [|h hooks IH]; intros s Hf Hp; [done|].
    simpl. apply IH; unfold_hooks;
      destruct s as [fm [|v|err] n], h; simpl in *; subst; try done;
      by destruct (Hp v). }
  by apply H.
Qed.

Lemma executor_result init : settled_with_result init (executor init).
Proof.
  unfold settled_with_result, executor.
  destruct (during_init (during init)) as [Hf Hp]. simpl in *.
  destruct (result init) as [e|v0]; simpl.
  - unfold reject.
    destruct (promise (fold_left call_hook (during init) (mkClosure None Pending 0)))
      eqn:E; simpl; rewrite ?E; try done; try (by destruct (Hp value)).
  - split; [done|]. intros v H. by destruct (Hp v).
Qed.

Lemma later_result init s e :
  settled_with_result init s -> settled_with_result init (later s e).
Proof.
  unfold settled_with_result. unfold_hooks.
  destruct (result init) as [err|v0];
    destruct s as [fm p n], e as [[|code err'']|]; simpl;
    intros [H1 H2]; subst;
    repeat match goal with
           | |- context [match ?x with _ => _ end] => destruct x; simpl in *
           end;
    (split; [done|]); intros ?; try done;
    intros Heq;
    first [ done | by apply H2 | by destruct (H2 _ Heq)
          | inversion Heq; subst; first [ done | by apply H2 ] ].
Qed.

Lemma events_result init events :
  settled_with_result init (fold_left later events (executor init)).
Proof.
  induction events as [|e events IH] using rev_ind; [apply executor_result|].
  rewrite fold_left_app. by apply later_result.
Qed.

(** The promise is only ever fulfilled with the value [initModule] returned:
    never with [undefined] when [initModule] returned a module, and never at
    all when [initModule] threw. *)
Theorem getModuleAsync_fulfilled_with_result init events v :
  getModuleAsync init events = Fulfilled v ->
  result init = inr v.
Proof.
  intros H. pose proof (events_result init events) as Hinv.
  unfold settled_with_result, getModuleAsync in *.
  destruct (result init) as [e|v0].
  - destruct Hinv as [_ Hinv]. by destruct (Hinv v).
  - destruct Hinv as [_ Hinv]. by rewrite (Hinv v H).
Qed.

Lemma during_rejection hooks s errs :
  (forall e, promise s = RejectedWith e -> e ∈ errs) ->
  forall e, promise (fold_left call_hook hooks s) = RejectedWith e ->
    e ∈ errs ++ omap (λ h, match h with Quit _ err => Some err | PreRun => None end) hooks.
Proof.
  revert s errs. induction hooks as [|h hooks IH]; intros s errs Hs e He.
  - rewrite app_nil_r. by apply Hs.
  - simpl in He. destruct h as [|code err]; simpl.
    + apply (IH (call_hook s PreRun) errs); [|done].
      intros e' He'. apply Hs. unfold_hooks.
      destruct s as [[m|] [| |] n]; simpl in *; congruence.
    + rewrite cons_middle, (assoc_L (++)).
      apply (IH (call_hook s (Quit code err)) (errs ++ [err])); [|done].
      intros e' He'. rewrite elem_of_app, list_elem_of_singleton. unfold_hooks.
      destruct s as [fm [| |] n]; simpl in *;
        first [ right; congruence | left; apply Hs; congruence ].
Qed.

(** Whatever happens, the promise is rejected only with an error the runtime
    passed to [quit] or with the error [initModule] threw. *)
Theorem getModuleAsync_rejected_with_cause init events e :
  getModuleAsync init events = RejectedWith e ->
  e ∈ quit_errors init events \/ result init = inl e.
Proof.
  unfold getModuleAsync, quit_errors.
  set (q := omap (λ h, match h with Quit _ err => Some err | PreRun => None end)
              (during init)).
  assert (Hex : forall e, promise (executor init) = RejectedWith e ->
                  e ∈ q \/ result init = inl e).
  { intros e' He'. unfold executor in He'.
    pose proof (during_rejection (during init) (mkClosure None Pending 0) []
                  ltac:(simpl; congruence)) as Hd. simpl in Hd.
    destruct (result init) as [thrown|v]; simpl in *; [|by left; apply Hd].
    unfold reject in He'.
    destruct (promise (fold_left call_hook (during init) (mkClosure None Pending 0)))
      eqn:E; simpl in *; rewrite ?E in He'.
    - right. congruence.
    - done.
    - left. apply Hd. congruence. }
  revert e. induction events as [|ev events IH] using rev_ind; intros e He.
  - simpl in *. rewrite app_nil_r. by apply Hex.
  - rewrite fold_left_app in He. simpl in He.
    rewrite omap_app, (assoc_L (++)), elem_of_app.
    set (s := fold_left later events (executor init)) in *.
    assert (Hcases : promise s = RejectedWith e \/
                     exists code, ev = Calls (Quit code e)).
    { clearbody s. unfold_hooks.
      destruct ev as [[|code qerr]|], s as [fm [|v'|e'] n]; simpl in *;
        repeat match goal with
               | H : context [match ?x with _ => _ end] |- _ =>
                   destruct x; simpl in *
               end;
        first [ by left | discriminate | right; exists code; congruence ]. }
    destruct Hcases as [Hs|[code ->]].
    + destruct (IH e Hs); [left; by left | by right].
    + left. right. simpl. apply list_elem_of_here.
Qed.

Lemma preRun_defers hooks n :
  Forall (λ h, h = PreRun) hooks ->
  fold_left call_hook hooks (mkClosure None Pending n) =
  mkClosure None Pending (length hooks + n).
Proof.
  intros H. revert n. induction H as [|h hooks -> _ IH]; intros n; [done|].
  cbn. rewrite IH. f_equal. lia.
Qed.

(** When [initModule] throws, the promise is rejected as soon as the executor
    is done, and with the thrown error unless [quit] ran first. *)
Theorem getModuleAsync_throwing_init init events e :
  result init = inl e ->
  getModuleAsync init events = getModuleAsync init [] /\
  (Forall (λ h, h = PreRun) (during init) ->
   getModuleAsync init events = RejectedWith e).
Proof.
  intros Hr.
  assert (Hs : getModuleAsync init [] <> Pending).
  { pose proof (executor_result init) as H. unfold settled_with_result in H.
    rewrite Hr in H. apply H. }
  split; [exact (getModuleAsync_settles_once init [] events Hs)|].
  intros Hpre.
  pose proof (getModuleAsync_settles_once init [] events Hs) as Honce.
  simpl in Honce. rewrite Honce.
  unfold getModuleAsync, executor. simpl. rewrite Hr.
  unfold reject. by rewrite (preRun_defers (during init) 0 Hpre).
Qed.

(** Returning from [initModule] settles nothing: as long as the runtime calls
    neither [preRun] nor [quit], the promise stays pending, and the caller of
    the loader stays suspended. *)
Theorem getModuleAsync_pending_without_hooks init events v :
  result init = inr v ->
  during init = [] ->
  Forall (λ e, e = TimeoutRuns) events ->
  getModuleAsync init events = Pending.
Proof.
  intros Hr Hd Hev. unfold getModuleAsync, executor. rewrite Hr, Hd. simpl.
  induction Hev as [|e events -> _ IH]; [done|]. simpl. exact IH.
Qed.

(** A [preRun] called while [initModule] is still running cannot resolve the
    promise, [finalModule] being unset: the promise is pending when the
    executor is done, and the first timeout fulfils it with what [initModule]
    returned. *)
Theorem getModuleAsync_preRun_during_init init events v :
  result init = inr v ->
  during init <> [] ->
  Forall (λ h, h = PreRun) (during init) ->
  getModuleAsync init [] = Pending /\
  getModuleAsync init (TimeoutRuns :: events) = Fulfilled v.
Proof.
  intros Hr Hne Hpre.
  pose proof (preRun_defers (during init) 0 Hpre) as Hs.
  split.
  - unfold getModuleAsync, executor. simpl. by rewrite Hr, Hs.
  - assert (Hone : getModuleAsync init [TimeoutRuns] = Fulfilled v).
    { unfold getModuleAsync, executor. simpl. rewrite Hr, Hs. simpl.
      by destruct (during init). }
    pose proof (getModuleAsync_settles_once init [TimeoutRuns] events) as Honce.
    simpl in Honce. rewrite Honce; [done|]. by rewrite Hone.
Qed.

(** After [initModule] has returned a module without any hook having run,
    the first hook the runtime calls decides: [preRun] fulfils the promise
    with that module at once, [quit] rejects it with its error. *)
Theorem getModuleAsync_first_hook_decides init h events m :
  result init = inr (Some m) ->
  during init = [] ->
  getModuleAsync init (Calls h :: events) =
  match h with
  | PreRun => Fulfilled (Some m)
  | Quit _ err => RejectedWith err
  end.
Proof.
  intros Hr Hd.
  assert (Hone : getModuleAsync init [Calls h] =
                 match h with
                 | PreRun => Fulfilled (Some m)
                 | Quit _ err => RejectedWith err
                 end).
  { unfold getModuleAsync, executor. rewrite Hr, Hd. by destruct h. }
  pose proof (getModuleAsync_settles_once init [Calls h] events) as Honce.
  simpl in Honce. rewrite Honce; [done|]. rewrite Hone. by destruct h.
Qed.

Lemma append_inj_r (p a b : string) : String.append p a = String.append p b -> a = b.
Proof. induction p as [|c p IH]; simpl; [done|]. intros [= H]. by apply IH. Qed.

(** [locateFile] puts the prefix in front of the file name: with the prefix
    left out the name comes back unchanged, and under one prefix two
    different files are never located at the same place. *)
Theorem locateFile_keeps_files_apart prefix file file' :
  locateFile None file = file /\
  (locateFile prefix file = locateFile prefix file' -> file = file').
Proof.
  split; [done|]. unfold locateFile. apply append_inj_r.
Qed.

End GetModuleFacts.

(** ** Concrete runs *)

Import Schedule GetModule.

(** A failed Wasm stays failed through a fallback call and a Wasm-only call. *)
Lemma serve_all_decided_witness :
  let st := mkState (errorValue "boom") undefined [] [] in
  let rs := [mkRequest WasmWithAsmJsFallback (λ _, Resolved (instanceValue 3));
             mkRequest WasmOnly (λ _, Resolved (instanceValue 4))] in
  moduleVar Wasm st <> undefined /\
  moduleVar Wasm (serve_all found rs st) = moduleVar Wasm st /\
  native_initializations Wasm (serve_all found rs st) =
    native_initializations Wasm st.
Proof.
  intros st rs.
  assert (H : moduleVar Wasm st <> undefined) by discriminate.
  split; [exact H|].
  exact (serve_all_decided_is_terminal found rs st Wasm H).
Defined.

(** Two overlapping Wasm-only calls, both resolved. *)
Lemma run_returns_distinct_wrappers_witness :
  let steps := [StartCall WasmOnly; StartCall WasmOnly;
                Settle 0 (Resolved (instanceValue 1));
                Settle 1 (Resolved (instanceValue 2))] in
  0 <> 1 /\
  calls (Schedule.run found steps (mkSystem initial [])) !! 0 = Some (Return 0) /\
  calls (Schedule.run found steps (mkSystem initial [])) !! 1 = Some (Return 1) /\
  0 <> 1.
Proof.
  intros steps.
  split; [discriminate|].
  split; [reflexivity|].
  split; [reflexivity|].
  apply (run_returns_distinct_wrappers found steps initial 0 1 0 1);
    [discriminate | reflexivity | reflexivity].
Defined.

Lemma overlapping_entries_witness :
  requests WasmOnly Wasm /\
  moduleVar Wasm (loader (mkSystem initial [])) = undefined /\
  found Wasm = None /\
  native_initializations Wasm
    (loader (Schedule.run found (replicate 3 (StartCall WasmOnly))
               (mkSystem initial []))) =
  3 + native_initializations Wasm (loader (mkSystem initial [])).
Proof.
  split; [right; reflexivity|].
  split; [reflexivity|].
  split; [reflexivity|].
  apply (overlapping_entries_each_initialize found 3 WasmOnly Wasm
           (mkSystem initial []));
    [right; reflexivity | reflexivity | reflexivity].
Defined.

(** A rejection with a value that is not an Error: it is stored, and the next
    call hands it out as the instance; it was delivered by the settlement. *)
Lemma run_holds_only_delivered_witness :
  let steps := [StartCall WasmOnly; Settle 0 (Rejected (instanceValue 5));
                StartCall WasmOnly] in
  let sys := Schedule.run found steps (mkSystem initial []) in
  objects (loader sys) !! 0 = Some (mkWrapper Wasm (instanceValue 5)) /\
  instanceValue 5 ∈ known (loader sys) /\
  (instanceValue 5 ∈ known (loader (mkSystem initial [])) \/
   instanceValue 5 ∈ delivered steps \/
   exists f, found f = Some (instanceValue 5)).
Proof.
  intros steps sys.
  assert (H : instanceValue 5 ∈ known (loader sys))
    by apply list_elem_of_here.
  split; [reflexivity|].
  split; [exact H|].
  exact (run_holds_only_delivered_values found steps (mkSystem initial [])
           (instanceValue 5) H).
Defined.

(** Three calls in a row whose attempts deliver a module or an Error. *)
Lemma serve_all_initializes_at_most_once_witness :
  let rs := [mkRequest WasmOnly (λ _, Rejected (errorValue "quit"));
             mkRequest WasmOnly (λ _, Resolved (instanceValue 1));
             mkRequest WasmWithAsmJsFallback (λ _, Resolved (instanceValue 2))] in
  Forall (λ r, delivered_value found (settles r) Wasm <> undefined) rs /\
  native_initializations Wasm (serve_all found rs initial) <=
    S (native_initializations Wasm initial).
Proof.
  intros rs.
  assert (H : Forall (λ r, delivered_value found (settles r) Wasm <> undefined) rs)
    by (repeat constructor; discriminate).
  split; [exact H|].
  exact (serve_all_initializes_at_most_once found rs initial Wasm H).
Defined.

Lemma overlapping_calls_last_settlement_witness :
  moduleVar Wasm initial = undefined /\
  found Wasm = None /\
  (exists s4 a,
     two_overlapping_calls found (only Wasm)
       (Resolved (instanceValue 1)) (Rejected (errorValue "quit")) initial =
       (s4, a, Throw (ClipperError could_not_load_message)) /\
     returned_instance s4 a = Some (instanceValue 1) /\
     moduleVar Wasm s4 = errorValue "quit" /\
     forall settle,
       outcome_of (loadNativeClipperLibInstanceAsync found (only Wasm) settle s4) =
       Some (inl (ClipperError could_not_load_message))) /\
  (exists s4 b,
     two_overlapping_calls found (only Wasm)
       (Rejected (errorValue "quit")) (Resolved (instanceValue 1)) initial =
       (s4, Throw (ClipperError could_not_load_message), b) /\
     returned_instance s4 b = Some (instanceValue 1) /\
     moduleVar Wasm s4 = instanceValue 1).
Proof.
  split; [reflexivity|].
  split; [reflexivity|].
  apply (overlapping_calls_last_settlement_wins found Wasm initial 1 "quit");
    reflexivity.
Defined.

(** [preRun] after the return, then a late [quit]. *)
Lemma getModuleAsync_settles_once_witness :
  let init := mkInitModule [] (inr (Some 1)) in
  getModuleAsync init [Calls PreRun] <> Pending /\
  getModuleAsync init ([Calls PreRun] ++ [Calls (Quit 1 "late")]) =
    getModuleAsync init [Calls PreRun].
Proof.
  intros init.
  assert (H : getModuleAsync init [Calls PreRun] <> Pending) by discriminate.
  split; [exact H|].
  exact (getModuleAsync_settles_once init [Calls PreRun] [Calls (Quit 1 "late")] H).
Defined.

Lemma getModuleAsync_fulfilled_witness :
  let init := mkInitModule [PreRun] (inr (Some 1)) in
  getModuleAsync init [TimeoutRuns] = Fulfilled (Some 1) /\
  result init = inr (Some 1).
Proof.
  intros init.
  split; [reflexivity|].
  apply (getModuleAsync_fulfilled_with_result init [TimeoutRuns] (Some 1)).
  reflexivity.
Defined.

Lemma getModuleAsync_rejected_witness :
  let init := mkInitModule [] (inr (Some 1)) in
  let events := [Calls (Quit 1 "abort")] in
  getModuleAsync init events = RejectedWith "abort" /\
  ("abort" ∈ quit_errors init events \/ result init = inl "abort").
Proof.
  intros init events.
  split; [reflexivity|].
  apply (getModuleAsync_rejected_with_cause init events "abort").
  reflexivity.
Defined.

(** [preRun] runs, then [initModule] throws: the timeout comes too late. *)
Lemma getModuleAsync_throwing_init_witness :
  let init := mkInitModule [PreRun] (inl "link error") in
  result init = inl "link error" /\
  Forall (λ h, h = PreRun) (during init) /\
  getModuleAsync init [TimeoutRuns] = getModuleAsync init [] /\
  getModuleAsync init [TimeoutRuns] = RejectedWith "link error".
Proof.
  intros init.
  assert (Hpre : Forall (λ h, h = PreRun) (during init))
    by (repeat constructor).
  split; [reflexivity|].
  split; [exact Hpre|].
  destruct (getModuleAsync_throwing_init init [TimeoutRuns] "link error" eq_refl)
    as [H1 H2].
  split; [exact H1 | exact (H2 Hpre)].
Defined.

Lemma getModuleAsync_pending_witness :
  let init := mkInitModule [] (inr (Some 1)) in
  let events := [TimeoutRuns; TimeoutRuns] in
  result init = inr (Some 1) /\
  during init = [] /\
  Forall (λ e, e = TimeoutRuns) events /\
  getModuleAsync init events = Pending.
Proof.
  intros init events.
  assert (Hev : Forall (λ e, e = TimeoutRuns) events) by (repeat constructor).
  split; [reflexivity|].
  split; [reflexivity|].
  split; [exact Hev|].
  exact (getModuleAsync_pending_without_hooks init events (Some 1)
           eq_refl eq_refl Hev).
Defined.

Lemma getModuleAsync_preRun_during_init_witness :
  let init := mkInitModule [PreRun] (inr (Some 1)) in
  let events := [Calls (Quit 1 "late")] in
  result init = inr (Some 1) /\
  during init <> [] /\
  Forall (λ h, h = PreRun) (during init) /\
  getModuleAsync init [] = Pending /\
  getModuleAsync init (TimeoutRuns :: events) = Fulfilled (Some 1).
Proof.
  intros init events.
  assert (Hne : during init <> []) by discriminate.
  assert (Hpre : Forall (λ h, h = PreRun) (during init)) by (repeat constructor).
  split; [reflexivity|].
  split; [exact Hne|].
  split; [exact Hpre|].
  exact (getModuleAsync_preRun_during_init init events (Some 1) eq_refl Hne Hpre).
Defined.

Lemma getModuleAsync_first_hook_witness :
  let init := mkInitModule [] (inr (Some 1)) in
  result init = inr (Some 1) /\
  during init = [] /\
  getModuleAsync init [Calls (Quit 1 "abort"); Calls PreRun] = RejectedWith "abort".
Proof.
  intros init.
  split; [reflexivity|].
  split; [reflexivity|].
  exact (getModuleAsync_first_hook_decides init (Quit 1 "abort") [Calls PreRun] 1
           eq_refl eq_refl).
Defined.
